(** * Verification of [lib/ansible/module_utils/k8s/common.py]

    A shallow embedding of [K8sAnsibleMixin]: the selective diff
    ([diff_objects]), the authentication resolver ([get_api_client],
    [client_from_kubeconfig]), the alias normaliser ([remove_aliases]) and
    the resource loader ([load_resource_definitions]). *)

From stdpp Require Import base strings list gmap fin_maps pretty.

Local Open Scope string_scope.
Local Open Scope list_scope.

(** ** Python values *)

Module Py.

(** Scalars that occur in module parameters and in resource documents. *)
Inductive atom :=
  | ANone
  | ABool (b : bool)
  | AInt (n : Z)
  | AStr (s : string).

(** A document: scalars, sequences, and insertion-ordered mappings with
    string keys (kept as association lists, in iteration order). *)
#[local] Unset Elimination Schemes.
Inductive value :=
  | Atom (a : atom)
  | List (xs : list value)
  | Dict (items : list (string * value)).
#[local] Set Elimination Schemes.

Abbreviation None_ := (Atom ANone).
Abbreviation Int n := (Atom (AInt n)).
Abbreviation Str s := (Atom (AStr s)).
Abbreviation Bool b := (Atom (ABool b)).

(** Exceptions that the modelled code raises or lets through. *)
Inductive exn :=
  | AttributeError (msg : string)
  | IOError (msg : string)
  | ConfigException (msg : string)
  | YAMLError (msg : string)
  | OtherError (name msg : string).

Inductive result (A : Type) :=
  | Ok (a : A)
  | Raise (e : exn).
Arguments Ok {A} a.
Arguments Raise {A} e.

#[global] Instance result_ret : MRet result := λ A a, Ok a.
#[global] Instance result_bind : MBind result := λ A B k r,
  match r with
  | Ok a => k a
  | Raise e => Raise e
  end.
#[global] Instance result_fmap : FMap result := λ A B f r,
  match r with
  | Ok a => Ok (f a)
  | Raise e => Raise e
  end.

(** [type(o).__name__] *)
Definition type_name (o : value) : string :=
  match o with
  | Atom ANone => "NoneType"
  | Atom (ABool _) => "bool"
  | Atom (AInt _) => "int"
  | Atom (AStr _) => "str"
  | List _ => "list"
  | Dict _ => "dict"
  end.

Definition no_attribute (o : value) (attr : string) : exn :=
  AttributeError ("'" ++ type_name o ++ "' object has no attribute '" ++ attr ++ "'").

(** [bool(a)] *)
Definition truthy (a : atom) : bool :=
  match a with
  | ANone => false
  | ABool b => b
  | AInt n => negb (n =? 0)%Z
  | AStr s => negb (String.eqb s "")
  end.

(** ["{}".format(a)] *)
Definition format (a : atom) : string :=
  match a with
  | ANone => "None"
  | ABool true => "True"
  | ABool false => "False"
  | AInt n => pretty n
  | AStr s => s
  end.

(** [a == b] on scalars; [bool] is a subclass of [int]. *)
Definition atom_eqb (a b : atom) : bool :=
  match a, b with
  | ANone, ANone => true
  | ABool x, ABool y => Bool.eqb x y
  | AInt x, AInt y => (x =? y)%Z
  | ABool x, AInt y | AInt y, ABool x => ((if x then 1 else 0) =? y)%Z
  | AStr s, AStr t => String.eqb s t
  | _, _ => false
  end.

(** [bool(o)] *)
Definition truthy_value (o : value) : bool :=
  match o with
  | Atom a => truthy a
  | List xs => negb (bool_decide (xs = []))
  | Dict items => negb (bool_decide (items = []))
  end.

(** [o is None] *)
Definition is_none (o : value) : bool :=
  match o with
  | Atom ANone => true
  | _ => false
  end.

(** [s.upper()] on ASCII text. *)
Definition upper_ascii (c : Ascii.ascii) : Ascii.ascii :=
  let n := Ascii.nat_of_ascii c in
  if (97 <=? n)%nat && (n <=? 122)%nat then Ascii.ascii_of_nat (n - 32) else c.

Fixpoint upper (s : string) : string :=
  match s with
  | EmptyString => EmptyString
  | String c rest => String (upper_ascii c) (upper rest)
  end.

(** *** Mapping operations *)

(** Insertion-ordered mappings with string keys. *)
Section dict.
Context {V : Type}.

(** [d.get(k)] as an option. *)
Fixpoint dict_lookup (k : string) (d : list (string * V)) : option V :=
  match d with
  | [] => None
  | (k', v) :: rest => if String.eqb k k' then Some v else dict_lookup k rest
  end.

(** [k in d] *)
Definition dict_mem (k : string) (d : list (string * V)) : bool :=
  match dict_lookup k d with Some _ => true | None => false end.

(** [d[k] = v]: an existing key keeps its position, a new one goes last. *)
Fixpoint dict_set (k : string) (v : V) (d : list (string * V)) : list (string * V) :=
  match d with
  | [] => [(k, v)]
  | (k', v') :: rest =>
      if String.eqb k k' then (k, v) :: rest else (k', v') :: dict_set k v rest
  end.

(** [d.update(other)] *)
Definition dict_update (d other : list (string * V)) : list (string * V) :=
  foldl (λ acc '(k, v), dict_set k v acc) d other.

(** [d.keys()] *)
Definition keys (d : list (string * V)) : list string := d.*1.
End dict.

Abbreviation dict := (list (string * value)).

(** [o.get(k, default)]; only mappings have a [get]. *)
Definition get (o : value) (k : string) (default : value) : result value :=
  match o with
  | Dict items => Ok (from_option id default (dict_lookup k items))
  | _ => Raise (no_attribute o "get")
  end.

End Py.
Import Py.

(** ** The structural diff of the [dictdiffer] package *)

Module Dictdiffer.

Inductive pkey :=
  | Key (k : string)
  | Index (i : nat).

Definition path := list pkey.

(** One divergence: its kind, the path of the node it was found at, and
    the values involved.  For [CHANGE] the payload is the pair
    [(first, second)]; for [ADD] and [REMOVE] it lists the keys (or
    indices) found on one side only, with their values. *)
Inductive FieldChange :=
  | ADD (node : path) (items : list (pkey * value))
  | REMOVE (node : path) (items : list (pkey * value))
  | CHANGE (node : path) (first second : value).

(** [first != second] where the two are not both mappings and not both
    sequences. *)
Definition differs (first second : value) : bool :=
  match first, second with
  | Atom a, Atom b => negb (atom_eqb a b)
  | _, _ => true
  end.

Definition only_in (d other : dict) : list (pkey * value) :=
  omap (λ '(k, v), if dict_mem k other then None else Some (Key k, v)) d.

Definition emit (kind : path → list (pkey * value) → FieldChange)
    (node : path) (items : list (pkey * value)) : list FieldChange :=
  match items with
  | [] => []
  | _ => [kind node items]
  end.

(** Keys of [first] that [second] has too, each compared recursively. *)
Fixpoint diff_keys (rec : value → value → path → list FieldChange)
    (first second : dict) (node : path) : list FieldChange :=
  match first with
  | [] => []
  | (k, v) :: rest =>
      match dict_lookup k second with
      | Some w => rec v w (node ++ [Key k]) ++ diff_keys rec rest second node
      | None => diff_keys rec rest second node
      end
  end.

(** The common prefix of two sequences, compared index by index. *)
Fixpoint diff_indices (rec : value → value → path → list FieldChange)
    (first second : list value) (i : nat) (node : path) : list FieldChange :=
  match first, second with
  | x :: xs, y :: ys => rec x y (node ++ [Index i]) ++ diff_indices rec xs ys (S i) node
  | _, _ => []
  end.

Definition indexed (from : nat) (xs : list value) : list (pkey * value) :=
  imap (λ i x, (Index (from + i), x)) xs.

(** Modelled from the spec: [dictdiffer.diff], a third-party package that
    is not part of the repository.  Mappings are compared key by key,
    sequences element by element (index-aligned), scalars by equality;
    every divergence is emitted with its path from the root and its kind
    (added, removed, changed). *)
Fixpoint diff (first second : value) (node : path) {struct first} : list FieldChange :=
  match first, second with
  | Dict d1, Dict d2 =>
      diff_keys diff d1 d2 node
      ++ emit ADD node (only_in d2 d1)
      ++ emit REMOVE node (only_in d1 d2)
  | List l1, List l2 =>
      let n := length l1 `min` length l2 in
      diff_indices diff l1 l2 0 node
      ++ emit ADD node (indexed n (drop n l2))
      ++ emit REMOVE node (reverse (indexed n (drop n l1)))
  | _, _ => if differs first second then [CHANGE node first second] else []
  end.

End Dictdiffer.
Import Dictdiffer.

(** ** [K8sAnsibleMixin] *)

(** *** [diff_objects] *)

(** The loop of [get_shared_attrs] over [o2.items()], with the mapping
    built so far. *)
Fixpoint shared_attrs_loop (rec : value → value → result value)
    (o1 : value) (items : dict) (shared_attrs : dict) : result value :=
  match items with
  | [] => Ok (Dict shared_attrs)
  | (k, v) :: rest =>
      match v with
      | Dict _ =>
          sub ← get o1 k (Dict []);
          r ← rec sub v;
          shared_attrs_loop rec o1 rest (dict_set k r shared_attrs)
      | _ =>
          x ← get o1 k None_;
          shared_attrs_loop rec o1 rest (dict_set k x shared_attrs)
      end
  end.

(** The inner function of [diff_objects]: the part of [o1] that has the
    shape of [o2].  The value that [o1] holds under a key is fetched with
    [o1.get], which only a mapping has. *)
Fixpoint get_shared_attrs (o1 o2 : value) {struct o2} : result value :=
  match o2 with
  | Dict items => shared_attrs_loop get_shared_attrs o1 items []
  | _ => Raise (no_attribute o2 "items")
  end.

(** Returns the pair [(match, diffs)]. *)
Definition diff_objects (existing new : value) : result (bool * list FieldChange) :=
  shared ← get_shared_attrs existing new;
  let diffs := diff new shared [] in
  Ok (bool_decide (length diffs = 0), diffs).


(** *** Argument specs *)

(** The attributes an option may declare in an argument spec. *)
Record arg_attrs := {
  type_ : option string;
  default_ : option value;
  choices : option (list string);
  aliases : option (list string);
  no_log : option bool;
}.

Definition no_attrs : arg_attrs :=
  {| type_ := None; default_ := None; choices := None; aliases := None; no_log := None |}.

Abbreviation arg_spec := (list (string * arg_attrs)).

Definition COMMON_ARG_SPEC : arg_spec := [
  ("state", {| type_ := None; default_ := Some (Str "present");
               choices := Some ["present"; "absent"]; aliases := None; no_log := None |});
  ("force", {| type_ := Some "bool"; default_ := Some (Bool false);
               choices := None; aliases := None; no_log := None |});
  ("resource_definition", {| type_ := Some "dict"; default_ := None;
               choices := None; aliases := Some ["definition"; "inline"]; no_log := None |});
  ("src", {| type_ := Some "path"; default_ := None;
             choices := None; aliases := None; no_log := None |});
  ("kind", no_attrs);
  ("name", no_attrs);
  ("namespace", no_attrs);
  ("api_version", {| type_ := None; default_ := Some (Str "v1");
               choices := None; aliases := Some ["api"; "version"]; no_log := None |})
].

Definition typed (t : string) : arg_attrs :=
  {| type_ := Some t; default_ := None; choices := None; aliases := None; no_log := None |}.

Definition secret : arg_attrs :=
  {| type_ := None; default_ := None; choices := None; aliases := None; no_log := Some true |}.

Definition AUTH_ARG_SPEC : arg_spec := [
  ("kubeconfig", typed "path");
  ("context", no_attrs);
  ("host", no_attrs);
  ("api_key", secret);
  ("username", no_attrs);
  ("password", secret);
  ("verify_ssl", typed "bool");
  ("ssl_ca_cert", typed "path");
  ("cert_file", typed "path");
  ("key_file", typed "path")
].

(** *** The mixin object *)

(** [params] is supplied by the host module class; the mixin itself only
    declares [_argspec_cache]. *)
Record K8sAnsibleMixin := {
  _argspec_cache : option arg_spec;
  params : option (gmap string value);
}.

(** The [argspec] property: the cached spec when there is a non-empty
    one, else the common and auth specs merged, which it caches. *)
Definition argspec (self : K8sAnsibleMixin) : arg_spec * K8sAnsibleMixin :=
  match _argspec_cache self with
  | Some (entry :: more) => (entry :: more, self)
  | _ =>
      let argument_spec := dict_update COMMON_ARG_SPEC AUTH_ARG_SPEC in
      (argument_spec, {| _argspec_cache := Some argument_spec; params := params self |})
  end.

(** *** [remove_aliases] *)

(** [self.params], which fails on an object that has none. *)
Definition get_params (self : K8sAnsibleMixin) : result (gmap string value) :=
  match params self with
  | Some p => Ok p
  | None => Raise (AttributeError "'K8sAnsibleMixin' object has no attribute 'params'")
  end.

Definition set_params (p : gmap string value) (self : K8sAnsibleMixin) : K8sAnsibleMixin :=
  {| _argspec_cache := _argspec_cache self; params := Some p |}.

(** [if alias in self.params: self.params.pop(alias)] *)
Definition pop_alias (alias : string) (self : K8sAnsibleMixin) : result K8sAnsibleMixin :=
  p ← get_params self;
  if bool_decide (is_Some (p !! alias))
  then Ok (set_params (delete alias p) self)
  else Ok self.

(** A loop whose body may raise. *)
Fixpoint for_each {A S : Type} (body : A → S → result S) (xs : list A) (s : S) : result S :=
  match xs with
  | [] => Ok s
  | x :: rest => s' ← body x s; for_each body rest s'
  end.

Definition remove_aliases (self : K8sAnsibleMixin) : result K8sAnsibleMixin :=
  let '(spec, self) := argspec self in
  for_each (λ '(k, v) self,
      match aliases v with
      | Some names => for_each pop_alias names self
      | None => Ok self
      end) spec self.

(** *** The [kubernetes] client objects *)

(** A [kubernetes.client.Configuration]: its attributes by name. *)
Abbreviation configuration := (gmap string value).

(** [kubernetes.client.ApiClient(c)]; no argument means the process-wide
    default configuration. *)
Inductive api_client :=
  | ApiClient (c : option configuration).

(** [openshift.dynamic.DynamicClient(client)]; the requests it sends to
    the cluster when it is built are outside the model. *)
Inductive dynamic_client :=
  | DynamicClient (client : api_client).

(** The values of the local variable [auth_method]. *)
Inductive auth_method :=
  | method_params
  | method_file
  | method_default.

(** [auth.get(k)] *)
Definition auth_get (auth : gmap string value) (k : string) : value :=
  default None_ (auth !! k).

(** [if auth.get(k)] *)
Definition auth_has (auth : gmap string value) (k : string) : bool :=
  truthy_value (auth_get auth k).

(** The [if]/[elif] chain that picks the method. *)
Definition select_auth_method (auth : gmap string value) : auth_method :=
  if auth_has auth "username" && auth_has auth "password" && auth_has auth "host"
  then method_params
  else if auth_has auth "api_key" && auth_has auth "host"
  then method_params
  else if auth_has auth "kubeconfig" || auth_has auth "context"
  then method_file
  else method_default.

(** [auth or getattr(self, 'params', {})] *)
Definition effective_auth (self : K8sAnsibleMixin) (auth : gmap string value)
    : gmap string value :=
  if bool_decide (auth = ∅) then default ∅ (params self) else auth.

Section auth.
(** [str] of a sequence or mapping, as ["{}".format] renders one. *)
Variable repr : value → string.
(** [os.environ] *)
Variable environ : gmap string string.
(** What [kubernetes.client.Configuration()] returns. *)
Variable Configuration : configuration.
(** [kubernetes.config.load_incluster_config()] *)
Variable load_incluster_config : result unit.
(** [kubernetes.config.new_client_from_config(config_file, context)] *)
Variable new_client_from_config : value → value → result api_client.

Definition format_value (o : value) : string :=
  match o with
  | Atom a => format a
  | _ => repr o
  end.

(** [os.getenv(name, None)] *)
Definition getenv (name : string) : option string := environ !! name.

(** The body of the loop over [iteritems(auth)]. *)
Definition configure (auth_args : list string) (key : string) (val : value)
    (conf : configuration) : configuration :=
  if bool_decide (key ∈ auth_args) && negb (is_none val) then
    if String.eqb key "api_key"
    then <[key := Dict [("authorization", Str ("Bearer " ++ format_value val))]]> conf
    else <[key := val]> conf
  else if bool_decide (key ∈ auth_args) && is_none val then
    match getenv ("K8S_AUTH_" ++ upper key) with
    | Some env_value => <[key := Str env_value]> conf
    | None => conf
    end
  else conf.

(** The configuration that [get_api_client] builds and installs with
    [Configuration.set_default]. *)
Definition build_configuration (auth : gmap string value) : configuration :=
  map_fold (configure (keys AUTH_ARG_SPEC)) Configuration auth.

Definition client_from_kubeconfig (config_file context : value) : result api_client :=
  match new_client_from_config config_file context with
  | Ok client => Ok client
  | Raise (IOError _ as e) | Raise (ConfigException _ as e) =>
      if negb (truthy_value config_file) then Ok (ApiClient None) else Raise e
  | Raise e => Raise e
  end.

(** The client for the chosen method. *)
Definition client_for (method : auth_method) (auth : gmap string value)
    (conf : configuration) : result dynamic_client :=
  match method with
  | method_default =>
      match load_incluster_config with
      | Ok _ => Ok (DynamicClient (ApiClient None))
      | Raise (ConfigException _) =>
          DynamicClient <$> client_from_kubeconfig (auth_get auth "kubeconfig") (auth_get auth "context")
      | Raise e => Raise e
      end
  | method_file =>
      DynamicClient <$> client_from_kubeconfig (auth_get auth "kubeconfig") (auth_get auth "context")
  | method_params => Ok (DynamicClient (ApiClient (Some conf)))
  end.

(** Returns the configuration installed as the process-wide default
    together with the client (or the exception raised). *)
Definition get_api_client (self : K8sAnsibleMixin) (auth : gmap string value)
    : configuration * result dynamic_client :=
  let auth := effective_auth self auth in
  let conf := build_configuration auth in
  (conf, client_for (select_auth_method auth) auth conf).
End auth.

(** *** [load_resource_definitions] *)

(** [self.fail_json(msg=...)] of the host module class: ends the run with
    the message. *)
Inductive outcome (A : Type) :=
  | Returns (a : A)
  | FailJson (msg : string)
  | Raises (e : exn).
Arguments Returns {A} a.
Arguments FailJson {A} msg.
Arguments Raises {A} e.

(** [str(exc)] *)
Definition exn_str (e : exn) : string :=
  match e with
  | AttributeError m | IOError m | ConfigException m | YAMLError m | OtherError _ m => m
  end.

Section loader.
(** [os.path.normpath] *)
Variable normpath : string → string.
(** [os.path.exists] *)
Variable path_exists : string → bool.
(** [open(path, 'r')] and reading the stream. *)
Variable read_file : string → result string.
(** [list(yaml.safe_load_all(stream))] on the text of the stream. *)
Variable safe_load_all : string → result (list value).

Definition load_resource_definitions (src : string) : outcome (list value) :=
  let path := normpath src in
  if negb (path_exists path)
  then FailJson ("Error accessing " ++ path ++ ". Does the file exist?")
  else
    match text ← read_file path; safe_load_all text with
    | Ok result => Returns result
    | Raise (IOError _ as exc) | Raise (YAMLError _ as exc) =>
        FailJson ("Error loading resource_definition: " ++ exn_str exc)
    | Raise e => Raises e
    end.
End loader.

(** ** Vocabulary of the statements *)

(** A Python mapping has each key once, at every level. *)
Fixpoint well_formed (o : value) : bool :=
  match o with
  | Atom _ => true
  | List xs => forallb well_formed xs
  | Dict items =>
      bool_decide (NoDup (keys items)) && forallb (λ kv, well_formed kv.2) items
  end.

(** [existing[p1]...[pn][k] = x], where [p] leads through mappings that
    are there; otherwise nothing changes. *)
Fixpoint add_key_at (p : list string) (k : string) (x : value) (existing : value) : value :=
  match existing with
  | Dict items =>
      match p with
      | [] => Dict (dict_set k x items)
      | j :: p' =>
          match dict_lookup j items with
          | Some sub => Dict (dict_set j (add_key_at p' k x sub) items)
          | None => existing
          end
      end
  | _ => existing
  end.

(** [new] does not mention the key [k] under [p]: following [p] through the
    mappings of [new] either leaves [new], or ends at a mapping without
    [k]. *)
Fixpoint unmentioned (p : list string) (k : string) (new : value) : bool :=
  match new with
  | Dict items =>
      match p with
      | [] => negb (dict_mem k items)
      | j :: p' =>
          match dict_lookup j items with
          | Some sub => unmentioned p' k sub
          | None => true
          end
      end
  | _ => false
  end.

(** The alias names that a spec declares. *)
Definition declared_aliases (spec : arg_spec) : list string :=
  concat (omap (λ kv, aliases kv.2) spec).

(** [p] after [p.pop(name)] for each of [names] in turn. *)
Definition without (names : list string) (p : gmap string value) : gmap string value :=
  foldl (λ p name, delete name p) p names.

(** What the loop body of [get_api_client] leaves under the key it
    handles, given what the configuration held there before. *)
Definition configured (repr : value → string) (environ : gmap string string)
    (k : string) (v : value) (before : option value) : option value :=
  if bool_decide (k ∈ keys AUTH_ARG_SPEC) then
    if is_none v then
      match getenv environ ("K8S_AUTH_" ++ upper k) with
      | Some env_value => Some (Str env_value)
      | None => before
      end
    else if String.eqb k "api_key"
    then Some (Dict [("authorization", Str ("Bearer " ++ format_value repr v))])
    else Some v
  else before.

(** What one round of the loop of [get_shared_attrs] stores under the key
    of the item. *)
Definition project_item (rec : value → value → result value) (o1 : value)
    (kv : string * value) : result value :=
  match kv.2 with
  | Dict _ => sub ← get o1 kv.1 (Dict []); rec sub kv.2
  | _ => get o1 kv.1 None_
  end.

(** [o.get(k, default)] on a mapping; the default on anything else. *)
Definition get_or (default : value) (o : value) (k : string) : value :=
  match o with
  | Dict items => from_option id default (dict_lookup k items)
  | _ => default
  end.

(** Wherever [o2] holds a non-empty mapping, [o1] holds a mapping or, below
    its root, lacks the key. *)
Fixpoint projectable (o1 o2 : value) : bool :=
  match o2 with
  | Dict [] => true
  | Dict items =>
      match o1 with
      | Dict _ =>
          forallb (λ kv,
            match kv.2 with
            | Dict _ => projectable (get_or (Dict []) o1 kv.1) kv.2
            | _ => true
            end) items
      | _ => false
      end
  | _ => false
  end.

(** [diff] finds nothing between the two. *)
Definition agrees (first second : value) : bool :=
  match diff first second [] with
  | [] => true
  | _ => false
  end.

(** [o1] has what [o2] asks for: under every key of [o2], down through the
    mappings of [o2], a value that agrees with the one of [o2]; a key that
    [o1] lacks counts as [None]. *)
Fixpoint satisfies (o1 o2 : value) : bool :=
  match o2 with
  | Dict items =>
      forallb (λ kv,
        match kv.2 with
        | Dict _ => satisfies (get_or (Dict []) o1 kv.1) kv.2
        | _ => agrees kv.2 (get_or None_ o1 kv.1)
        end) items
  | _ => false
  end.

Definition is_ok {A} (r : result A) : bool :=
  match r with
  | Ok _ => true
  | Raise _ => false
  end.

(** The exception is an [AttributeError]. *)
Definition is_AttributeError (e : exn) : Prop := ∃ msg, e = AttributeError msg.


(** A file system in which every path exists. *)
Definition path_exists_always (path : string) : bool := true.

(** ** Mappings *)

Section dict_facts.
Context {V : Type}.
Implicit Types (d : list (string * V)) (k : string) (v : V).

Lemma dict_lookup_set_eq k v d : dict_lookup k (dict_set k v d) = Some v.
Proof.
  induction d as [|[k' v'] d IH]; simpl.
  - by rewrite String.eqb_refl.
  - destruct (String.eqb k k') eqn:E; simpl; by rewrite ?String.eqb_refl, ?E.
Qed.

Lemma dict_lookup_set_ne k j v d : k ≠ j → dict_lookup j (dict_set k v d) = dict_lookup j d.
Proof.
  intros Hne. induction d as [|[k' v'] d IH]; simpl.
  - destruct (String.eqb_spec j k); congruence.
  - destruct (String.eqb_spec k k') as [->|]; simpl.
    + destruct (String.eqb_spec j k'); congruence.
    + by rewrite IH.
Qed.

Lemma dict_lookup_None k d : dict_lookup k d = None ↔ k ∉ keys d.
Proof.
  unfold keys. induction d as [|[k' v'] d IH]; simpl.
  - split; [intros _; apply not_elem_of_nil | done].
  - rewrite not_elem_of_cons. destruct (String.eqb_spec k k') as [->|Hne].
    + split; [done | by intros [? _]].
    + rewrite IH. split; [by intros; split | by intros [_ ?]].
Qed.

Lemma dict_lookup_elem k v d : NoDup (keys d) → (k, v) ∈ d → dict_lookup k d = Some v.
Proof.
  unfold keys. induction d as [|[k' v'] d IH]; simpl.
  - intros _ ?%elem_of_nil. done.
  - intros [Hk' Hd]%NoDup_cons [[= -> ->]|Hin]%elem_of_cons.
    + by rewrite String.eqb_refl.
    + destruct (String.eqb_spec k k') as [->|]; [|by apply IH].
      destruct Hk'. apply list_elem_of_fmap. by exists (k', v).
Qed.
End dict_facts.

(** ** The projection *)

Lemma get_shared_attrs_Dict o1 items :
  get_shared_attrs o1 (Dict items) = shared_attrs_loop get_shared_attrs o1 items [].
Proof. reflexivity. Qed.

(** The loop reads [o1] only through [o1.get] at the keys of [o2]. *)
Lemma shared_attrs_loop_ext rec o1 o1' items :
  Forall (λ kv,
    match kv.2 with
    | Dict _ =>
        (get o1' kv.1 (Dict []) ≫= λ sub, rec sub kv.2)
        = (get o1 kv.1 (Dict []) ≫= λ sub, rec sub kv.2)
    | _ => get o1' kv.1 None_ = get o1 kv.1 None_
    end) items →
  ∀ acc, shared_attrs_loop rec o1' items acc = shared_attrs_loop rec o1 items acc.
Proof.
  induction 1 as [|[k v] items Hkv _ IH]; intros acc; simpl in *; [done|].
  destruct v as [a|xs|sub].
  - rewrite Hkv. destruct (get o1 k None_); simpl; [apply IH | done].
  - rewrite Hkv. destruct (get o1 k None_); simpl; [apply IH | done].
  - destruct (get o1' k (Dict [])) as [s'|e'], (get o1 k (Dict [])) as [s|e];
      cbn in Hkv |- *.
    + rewrite Hkv. destruct (rec s (Dict sub)); cbn; [apply IH | done].
    + by rewrite Hkv.
    + by rewrite <- Hkv.
    + done.
Qed.

Lemma get_set_ne k j x items d :
  k ≠ j → get (Dict (dict_set k x items)) j d = get (Dict items) j d.
Proof. intros Hne. simpl. by rewrite dict_lookup_set_ne. Qed.

Lemma shared_attrs_loop_other_key rec k x eitems items :
  k ∉ keys items →
  ∀ acc, shared_attrs_loop rec (Dict (dict_set k x eitems)) items acc
         = shared_attrs_loop rec (Dict eitems) items acc.
Proof.
  intros Hk. apply shared_attrs_loop_ext, Forall_forall. intros [j v] Hin.
  assert (k ≠ j) as Hne.
  { intros ->. apply Hk. unfold keys. apply list_elem_of_fmap. by exists (j, v). }
  cbn [fst snd]. rewrite !(get_set_ne k j) by done. by destruct v.
Qed.

Lemma unmentioned_Dict p k new :
  unmentioned p k new = true → ∃ items, new = Dict items.
Proof. destruct new; destruct p; simpl; try done; eauto. Qed.

Lemma get_shared_attrs_add_key p k x :
  ∀ existing new,
    well_formed new = true → unmentioned p k new = true →
    get_shared_attrs (add_key_at p k x existing) new = get_shared_attrs existing new.
Proof.
  induction p as [|j p IH]; intros existing new Hwf Hun.
  - destruct (unmentioned_Dict _ _ _ Hun) as [items ->].
    destruct existing as [a|xs|eitems]; try done. simpl in Hun.
    rewrite !get_shared_attrs_Dict. simpl add_key_at.
    apply shared_attrs_loop_other_key, dict_lookup_None.
    unfold dict_mem in Hun. by destruct (dict_lookup k items).
  - destruct (unmentioned_Dict _ _ _ Hun) as [items ->].
    destruct existing as [a|xs|eitems]; try done. simpl in Hun |- *.
    destruct (dict_lookup j eitems) as [sub|] eqn:Hsub; [|done].
    apply andb_prop in Hwf as [Hnodup%bool_decide_eq_true Hall].
    destruct (dict_lookup j items) as [nsub|] eqn:Hnsub.
    + apply shared_attrs_loop_ext, Forall_forall. intros [j' v] Hin. simpl.
      destruct (decide (j = j')) as [<-|Hne].
      * rewrite (dict_lookup_elem _ _ _ Hnodup Hin) in Hnsub. injection Hnsub as ->.
        destruct (unmentioned_Dict _ _ _ Hun) as [nitems ->].
        rewrite dict_lookup_set_eq, Hsub. cbn. apply (IH sub (Dict nitems)); [|done].
        rewrite forallb_forall in Hall. apply (Hall (j, Dict nitems)).
        by apply list_elem_of_In.
      * rewrite !(dict_lookup_set_ne j j') by done. by destruct v.
    + apply shared_attrs_loop_other_key. by apply dict_lookup_None.
Qed.

(** ** [diff_objects] *)

(** C3.  A key that only [new] has, below a mapping that [existing] lacks:
    [diff_objects({}, {"a": {"b": 1}})] returns [match == False] and
    exactly one change, at path [a, b], between the value [1] of [new]
    and the missing sentinel [None] that the projection holds for the
    existing side. *)
Theorem C3_missing_nested_key :
  diff_objects (Dict []) (Dict [("a", Dict [("b", Int 1)])])
  = Ok (false, [CHANGE [Key "a"; Key "b"] (Int 1) None_]).
Proof. reflexivity. Qed.

(** C1.  Where [new] holds a non-empty mapping and [existing] a scalar
    under the same key, [diff_objects] raises [AttributeError] instead of
    reporting a change; the opposite mismatch (a scalar in [new], a mapping
    in [existing]) is reported as a change. *)
Theorem C1_mapping_over_scalar_raises :
  (∀ k a j v rest,
     diff_objects (Dict [(k, Atom a)]) (Dict [(k, Dict ((j, v) :: rest))])
     = Raise (no_attribute (Atom a) "get"))
  ∧ diff_objects (Dict [("a", Int 1)]) (Dict [("a", Dict [("b", Int 1)])])
    = Raise (AttributeError "'int' object has no attribute 'get'")
  ∧ diff_objects (Dict [("a", Dict [("b", Int 1)])]) (Dict [("a", Int 1)])
    = Ok (false, [CHANGE [Key "a"] (Int 1) (Dict [("b", Int 1)])]).
Proof.
  split; [|by split].
  intros k a j v rest. unfold diff_objects.
  rewrite get_shared_attrs_Dict. cbn. rewrite String.eqb_refl. cbn.
  by destruct v.
Qed.

(** C7, as stated, fails: a key that only [existing] has, in a mapping
    inside a sequence, turns a match into a mismatch. *)
Lemma C7_counterexample_key_inside_sequence :
  let new := Dict [("a", List [Dict [("x", Int 1)]])] in
  diff_objects (Dict [("a", List [Dict [("x", Int 1)]])]) new = Ok (true, [])
  ∧ diff_objects (Dict [("a", List [Dict [("x", Int 1); ("y", Int 2)]])]) new
    = Ok (false, [ADD [Key "a"; Index 0] [(Key "y", Int 2)]]).
Proof. by split. Qed.

(** C7, amended.  Keys that only [existing] has do not affect the result
    at any level of mappings nested in mappings: an empty [new] matches
    every [existing]; [diff_objects({"a": 1, "b": 2}, {"a": 1})] matches;
    and setting in [existing], under any path, a key that [new] does not
    mention there leaves the result as it was. *)
Theorem C7_existing_only_keys_are_dropped :
  (∀ existing, diff_objects existing (Dict []) = Ok (true, []))
  ∧ diff_objects (Dict [("a", Int 1); ("b", Int 2)]) (Dict [("a", Int 1)]) = Ok (true, [])
  ∧ (∀ p k x existing new,
       well_formed new = true → unmentioned p k new = true →
       diff_objects (add_key_at p k x existing) new = diff_objects existing new).
Proof.
  split; [done|]. split; [done|].
  intros p k x existing new Hwf Hun. unfold diff_objects.
  by rewrite get_shared_attrs_add_key.
Qed.

Lemma C7_existing_only_keys_are_dropped_witness :
  let existing := Dict [("spec", Dict [("replicas", Int 1)])] in
  let new := Dict [("spec", Dict [("replicas", Int 2)])] in
  well_formed new = true
  ∧ unmentioned ["spec"] "nodeName" new = true
  ∧ diff_objects (Dict [("spec", Dict [("replicas", Int 1); ("nodeName", Str "n1")])]) new
    = diff_objects existing new.
Proof.
  intros existing new. split; [reflexivity|]. split; [reflexivity|].
  apply (proj2 (proj2 C7_existing_only_keys_are_dropped)
           ["spec"] "nodeName" (Str "n1") existing new); reflexivity.
Defined.

(** ** The auth resolver *)

(** Membership in a literal list, by evaluation. *)
Ltac solve_elem := apply (bool_decide_unpack _); by vm_compute.

Section auth_facts.
Context (repr : value → string) (environ : gmap string string)
        (Configuration : configuration)
        (load_incluster_config : result unit)
        (new_client_from_config : value → value → result api_client).

Lemma configure_lookup_ne k j v (conf : configuration) :
  k ≠ j → configure repr environ (keys AUTH_ARG_SPEC) k v conf !! j = conf !! j.
Proof.
  intros Hne. unfold configure.
  repeat case_match; rewrite ?lookup_insert_ne; done.
Qed.

Lemma configure_lookup_eq k v (conf : configuration) :
  configure repr environ (keys AUTH_ARG_SPEC) k v conf !! k
  = configured repr environ k v (conf !! k).
Proof.
  unfold configure, configured.
  destruct (bool_decide (k ∈ keys AUTH_ARG_SPEC)), (is_none v); cbn [andb negb];
    repeat case_match; rewrite ?lookup_insert_eq; done.
Qed.

(** Each key of [auth] is handled once, and only its own attribute is
    touched. *)
Lemma build_configuration_lookup (auth : gmap string value) key :
  build_configuration repr environ Configuration auth !! key
  = match auth !! key with
    | Some v => configured repr environ key v (Configuration !! key)
    | None => Configuration !! key
    end.
Proof.
  unfold build_configuration. revert key.
  apply (map_fold_weak_ind (λ r (m : gmap string value), ∀ key,
           r !! key = match m !! key with
                      | Some v => configured repr environ key v (Configuration !! key)
                      | None => Configuration !! key
                      end)).
  - intros key. by rewrite lookup_empty.
  - intros i x m r Hi IH key. destruct (decide (i = key)) as [<-|Hne].
    + rewrite lookup_insert_eq, configure_lookup_eq, IH, Hi. done.
    + rewrite lookup_insert_ne, configure_lookup_ne, IH by done. done.
Qed.

Lemma auth_has_lookup (auth : gmap string value) k :
  auth_has auth k = true → ∃ v, auth !! k = Some v ∧ is_none v = false.
Proof.
  unfold auth_has, auth_get. destruct (auth !! k) as [v|]; cbn; [|done].
  intros Hv. exists v. split; [done|]. by destruct v as [[]| |].
Qed.

(** C2, amended.  For a recognised auth field whose key is in the
    parameter mapping with the value [None], the configuration gets the
    value of [K8S_AUTH_<FIELD>] when the environment has it, and keeps
    what the client library put there when it has not.  A value that is
    not [None] is installed whatever the environment holds ([api_key] as
    a bearer header).  A field whose key is not in the mapping is left as
    the client library initialised it. *)
Theorem C2_environment_fallback self kwargs key :
  key ∈ keys AUTH_ARG_SPEC →
  let auth := effective_auth self kwargs in
  let conf := (get_api_client repr environ Configuration load_incluster_config
                 new_client_from_config self kwargs).1 in
  (∀ s, auth !! key = Some None_ → environ !! ("K8S_AUTH_" ++ upper key)%string = Some s →
        conf !! key = Some (Str s))
  ∧ (auth !! key = Some None_ → environ !! ("K8S_AUTH_" ++ upper key)%string = None →
     conf !! key = Configuration !! key)
  ∧ (∀ v, auth !! key = Some v → is_none v = false →
        conf !! key
        = Some (if String.eqb key "api_key"
                then Dict [("authorization", Str ("Bearer " ++ format_value repr v)%string)]
                else v))
  ∧ (auth !! key = None → conf !! key = Configuration !! key).
Proof.
  intros Hkey auth conf. subst conf. cbn [get_api_client fst]. fold auth.
  rewrite build_configuration_lookup. unfold configured, getenv.
  rewrite (bool_decide_eq_true_2 _ Hkey).
  split; [|split; [|split]].
  - intros s Hk Henv. rewrite Hk. cbn [is_none]. by rewrite Henv.
  - intros Hk Henv. rewrite Hk. cbn [is_none]. by rewrite Henv.
  - intros v Hk Hv. rewrite Hk, Hv. by destruct (String.eqb key "api_key").
  - intros Hk. by rewrite Hk.
Qed.

(** C6.  With [username], [password] and [host] all given, the method is
    [params] and the client is built on the configuration that carries
    these three, whether or not an [api_key] is given as well. *)
Theorem C6_basic_auth_precedes_api_key self kwargs :
  let auth := effective_auth self kwargs in
  let result := get_api_client repr environ Configuration load_incluster_config
                  new_client_from_config self kwargs in
  auth_has auth "username" = true →
  auth_has auth "password" = true →
  auth_has auth "host" = true →
  select_auth_method auth = method_params
  ∧ result.2 = Ok (DynamicClient (ApiClient (Some result.1)))
  ∧ result.1 !! "username" = auth !! "username"
  ∧ result.1 !! "password" = auth !! "password"
  ∧ result.1 !! "host" = auth !! "host".
Proof.
  intros auth result Hu Hp Hh. subst result. cbn [get_api_client fst snd]. fold auth.
  assert (select_auth_method auth = method_params) as Hm.
  { unfold select_auth_method. by rewrite Hu, Hp, Hh. }
  rewrite Hm. split; [done|]. split; [done|].
  apply auth_has_lookup in Hu as (u & Hu & Hnu), Hp as (p & Hp & Hnp), Hh as (h & Hh & Hnh).
  rewrite !build_configuration_lookup, Hu, Hp, Hh. unfold configured.
  by rewrite Hnu, Hnp, Hnh.
Qed.

(** C8, amended.  The method is chosen from the parameter mapping alone:
    when [username], [password], [host], [api_key], [kubeconfig] and
    [context] are each missing or [None], the method is [default] whatever
    the environment holds, and the client is the one of the in-cluster
    attempt with its fallback.  The environment values reach the
    configuration for the fields given as [None]; for a field whose key is
    missing the configuration keeps what the client library put there. *)
Theorem C8_method_ignores_environment self kwargs :
  let auth := effective_auth self kwargs in
  let result := get_api_client repr environ Configuration load_incluster_config
                  new_client_from_config self kwargs in
  Forall (λ k, auth_get auth k = None_)
         ["username"; "password"; "host"; "api_key"; "kubeconfig"; "context"] →
  select_auth_method auth = method_default
  ∧ result.2
    = match load_incluster_config with
      | Ok _ => Ok (DynamicClient (ApiClient None))
      | Raise (ConfigException _) =>
          DynamicClient <$> client_from_kubeconfig new_client_from_config None_ None_
      | Raise e => Raise e
      end
  ∧ (∀ k s, k ∈ keys AUTH_ARG_SPEC → auth !! k = Some None_ →
            environ !! ("K8S_AUTH_" ++ upper k)%string = Some s →
            result.1 !! k = Some (Str s))
  ∧ (∀ k, auth !! k = None → result.1 !! k = Configuration !! k).
Proof.
  intros auth result Habs. subst result. rewrite Forall_forall in Habs. cbn [get_api_client fst snd]. fold auth.
  assert (select_auth_method auth = method_default) as Hm.
  { unfold select_auth_method.
    unfold auth_has. rewrite !Habs; [done|solve_elem ..]. }
  rewrite Hm. split; [done|]. split; [|split].
  - cbn [client_for]. rewrite !Habs; [done|solve_elem ..].
  - intros k s Hk Hnone Henv. rewrite build_configuration_lookup, Hnone.
    unfold configured, getenv. by rewrite (bool_decide_eq_true_2 _ Hk), Henv.
  - intros k Hk. by rewrite build_configuration_lookup, Hk.
Qed.

(** C4, amended.  [client_from_kubeconfig]: without a config file, a load
    that fails with an [IOError] (file not found, or any other error of
    that class) or with a [ConfigException] yields the client on the
    default configuration; an exception of any other class is passed on;
    with a config file given, every exception is passed on.  It is what
    the [file] method returns. *)
Theorem C4_kubeconfig_load_failures config_file context :
  let load := new_client_from_config config_file context in
  let client := client_from_kubeconfig new_client_from_config config_file context in
  (truthy_value config_file = false →
   ∀ m, load = Raise (IOError m) ∨ load = Raise (ConfigException m) →
        client = Ok (ApiClient None))
  ∧ (∀ e, (∀ m, e ≠ IOError m) → (∀ m, e ≠ ConfigException m) →
          load = Raise e → client = Raise e)
  ∧ (truthy_value config_file = true → ∀ e, load = Raise e → client = Raise e)
  ∧ (∀ self kwargs,
       let auth := effective_auth self kwargs in
       select_auth_method auth = method_file →
       (get_api_client repr environ Configuration load_incluster_config
          new_client_from_config self kwargs).2
       = DynamicClient <$> client_from_kubeconfig new_client_from_config
                             (auth_get auth "kubeconfig") (auth_get auth "context")).
Proof.
  intros load client. subst load client.
  split; [|split; [|split]]; unfold client_from_kubeconfig at 1.
  - intros Hcf m [-> | ->]; by rewrite Hcf.
  - intros e Hio Hce ->. destruct e; try done; [by destruct (Hio msg) | by destruct (Hce msg)].
  - intros Hcf e ->. destruct e; by rewrite ?Hcf.
  - intros self kwargs Hm. cbn [get_api_client snd]. by rewrite Hm.
Qed.
End auth_facts.

(** C5.  An [api_key] taken from the environment is installed as the bare
    string, while one given as a parameter is installed as the header
    [authorization: Bearer <api_key>]. *)
Theorem C5_environment_api_key_is_stored_bare
    repr Configuration load_incluster_config new_client_from_config :
  (get_api_client repr {[ "K8S_AUTH_API_KEY" := "tok" ]} Configuration
     load_incluster_config new_client_from_config
     {| _argspec_cache := None;
        params := Some {[ "api_key" := None_; "host" := Str "h" ]} |} ∅).1 !! "api_key"
  = Some (Str "tok")
  ∧ (get_api_client repr ∅ Configuration load_incluster_config new_client_from_config
       {| _argspec_cache := None;
          params := Some {[ "api_key" := Str "tok"; "host" := Str "h" ]} |} ∅).1 !! "api_key"
    = Some (Dict [("authorization", Str "Bearer tok")]).
Proof. cbn [get_api_client fst]. by rewrite !build_configuration_lookup. Qed.

(** C2, as stated, fails where the field is missing from the mapping and
    where it is given empty: the environment is not consulted, and the
    host is the one of the client library, or the empty one. *)
Lemma C2_counterexample_missing_or_empty :
  let environ : gmap string string := {[ "K8S_AUTH_HOST" := "example.com" ]} in
  let Configuration : configuration := {[ "host" := Str "https://localhost" ]} in
  let resolve self kwargs :=
    (get_api_client (λ _, "") environ Configuration (Raise (ConfigException "not in cluster"))
       (λ _ _, Raise (IOError "no such file")) self kwargs).1 in
  resolve {| _argspec_cache := None; params := Some ∅ |} ∅ !! "host"
  = Some (Str "https://localhost")
  ∧ resolve {| _argspec_cache := None; params := None |} {[ "context" := Str "c" ]} !! "host"
    = Some (Str "https://localhost")
  ∧ resolve {| _argspec_cache := None; params := None |} {[ "host" := Str "" ]} !! "host"
    = Some (Str "").
Proof. by vm_compute. Qed.

Lemma C2_environment_fallback_witness :
  "host" ∈ keys AUTH_ARG_SPEC
  ∧ (get_api_client (λ _, "") {[ "K8S_AUTH_HOST" := "example.com" ]}
       {[ "host" := Str "https://localhost" ]} (Raise (ConfigException "not in cluster"))
       (λ _ _, Raise (IOError "no such file"))
       {| _argspec_cache := None; params := Some {[ "host" := None_ ]} |} ∅).1 !! "host"
    = Some (Str "example.com").
Proof.
  assert ("host" ∈ keys AUTH_ARG_SPEC) as Hhost by solve_elem.
  split; [exact Hhost|].
  apply (proj1 (C2_environment_fallback (λ _, "") {[ "K8S_AUTH_HOST" := "example.com" ]}
                  {[ "host" := Str "https://localhost" ]}
                  (Raise (ConfigException "not in cluster"))
                  (λ _ _, Raise (IOError "no such file"))
                  {| _argspec_cache := None; params := Some {[ "host" := None_ ]} |} ∅
                  "host" Hhost)); reflexivity.
Defined.

Lemma C6_basic_auth_precedes_api_key_witness :
  let auth : gmap string value :=
    {[ "username" := Str "u"; "password" := Str "p"; "host" := Str "h"; "api_key" := Str "k" ]} in
  let result :=
    get_api_client (λ _, "") ∅ ∅ (Ok ()) (λ _ _, Raise (IOError "no such file"))
      {| _argspec_cache := None; params := None |} auth in
  select_auth_method auth = method_params
  ∧ result.2 = Ok (DynamicClient (ApiClient (Some result.1)))
  ∧ result.1 !! "username" = Some (Str "u")
  ∧ result.1 !! "password" = Some (Str "p")
  ∧ result.1 !! "host" = Some (Str "h").
Proof.
  intros auth result.
  apply (C6_basic_auth_precedes_api_key (λ _, "") ∅ ∅ (Ok ())
           (λ _ _, Raise (IOError "no such file"))
           {| _argspec_cache := None; params := None |} auth); reflexivity.
Defined.

Lemma C8_method_ignores_environment_witness :
  let environ : gmap string string :=
    {[ "K8S_AUTH_USERNAME" := "u"; "K8S_AUTH_PASSWORD" := "p"; "K8S_AUTH_HOST" := "h" ]} in
  let self :=
    {| _argspec_cache := None;
       params := Some {[ "username" := None_; "password" := None_; "host" := None_ ]} |} in
  let load (config_file context : value) : result api_client :=
    Raise (IOError "no such file") in
  let result :=
    get_api_client (λ _, "") environ ∅ (Raise (ConfigException "not in cluster")) load self ∅ in
  select_auth_method (effective_auth self ∅) = method_default
  ∧ result.2 = Ok (DynamicClient (ApiClient None))
  ∧ result.1 !! "host" = Some (Str "h").
Proof.
  intros environ self load result.
  destruct (C8_method_ignores_environment (λ _, "") environ ∅
              (Raise (ConfigException "not in cluster")) load self ∅)
    as (Hm & Hc & Henv & _).
  { repeat constructor. }
  split; [exact Hm|]. split; [exact Hc|].
  apply Henv; [solve_elem | reflexivity | reflexivity].
Defined.

(** C8, as stated, fails for parameters that are missing from the mapping:
    the method is [default], but the environment values are not applied,
    and the configuration keeps the host of the client library and gets no
    user name or password. *)
Lemma C8_counterexample_missing_parameters :
  let environ : gmap string string :=
    {[ "K8S_AUTH_USERNAME" := "u"; "K8S_AUTH_PASSWORD" := "p"; "K8S_AUTH_HOST" := "h" ]} in
  let Configuration : configuration := {[ "host" := Str "https://localhost" ]} in
  let self := {| _argspec_cache := None; params := Some ∅ |} in
  let result :=
    get_api_client (λ _, "") environ Configuration (Raise (ConfigException "not in cluster"))
      (λ _ _, Raise (IOError "no such file")) self ∅ in
  select_auth_method (effective_auth self ∅) = method_default
  ∧ result.1 !! "host" = Some (Str "https://localhost")
  ∧ result.1 !! "username" = None
  ∧ result.1 !! "password" = None.
Proof. by vm_compute. Qed.

Lemma C4_kubeconfig_load_failures_witness :
  truthy_value None_ = false
  ∧ client_from_kubeconfig (λ _ _, Raise (IOError "no such file")) None_ (Str "ctx")
    = Ok (ApiClient None).
Proof.
  split; [reflexivity|].
  apply (proj1 (C4_kubeconfig_load_failures (λ _, "") ∅ ∅ (Ok ())
                  (λ _ _, Raise (IOError "no such file")) None_ (Str "ctx"))
           eq_refl "no such file").
  by left.
Defined.

(** C4, as stated, fails for an I/O error other than "file not found":
    without a config file, a load that fails because the default file
    cannot be read is not passed on either; the client on the default
    configuration is returned. *)
Lemma C4_counterexample_permission_denied :
  client_from_kubeconfig
    (λ _ _, Raise (IOError "[Errno 13] Permission denied: '/root/.kube/config'"))
    None_ None_
  = Ok (ApiClient None).
Proof. reflexivity. Qed.

(** ** [remove_aliases] *)

Lemma lookup_without names : ∀ (p : gmap string value) key,
  without names p !! key = if bool_decide (key ∈ names) then None else p !! key.
Proof.
  unfold without. induction names as [|name names IH]; intros p key; cbn [foldl].
  - done.
  - rewrite IH. destruct (decide (key = name)) as [->|Hne].
    + rewrite lookup_delete_eq, (bool_decide_eq_true_2 (name ∈ name :: names)).
      * by case_bool_decide.
      * apply list_elem_of_here.
    + rewrite lookup_delete_ne by done.
      destruct (decide (key ∈ names)) as [Hin|Hin].
      * rewrite !bool_decide_eq_true_2; [done| |done]. by apply list_elem_of_further.
      * rewrite !bool_decide_eq_false_2; [done| |done].
        by intros [?|?]%elem_of_cons.
Qed.

Lemma set_params_id self p : params self = Some p → set_params p self = self.
Proof. destruct self. cbn. by intros ->. Qed.

Lemma pop_alias_params alias self p :
  params self = Some p → pop_alias alias self = Ok (set_params (delete alias p) self).
Proof.
  intros Hp. unfold pop_alias, get_params. rewrite Hp. cbn.
  case_bool_decide as Hin; [done|].
  rewrite delete_id, set_params_id; [done..|].
  by apply eq_None_not_Some.
Qed.

Lemma for_each_pop_alias names : ∀ self p,
  params self = Some p →
  for_each pop_alias names self = Ok (set_params (without names p) self).
Proof.
  induction names as [|alias names IH]; intros self p Hp; cbn [for_each].
  - by rewrite set_params_id.
  - rewrite (pop_alias_params _ _ _ Hp). cbn.
    by rewrite (IH _ (delete alias p)).
Qed.

Lemma for_each_spec_entry (spec : arg_spec) : ∀ self p,
  params self = Some p →
  for_each (λ '(k, v) self,
      match aliases v with
      | Some names => for_each pop_alias names self
      | None => Ok self
      end) spec self
  = Ok (set_params (without (declared_aliases spec) p) self).
Proof.
  induction spec as [|[k v] spec IH]; intros self p Hp; cbn [for_each].
  - by rewrite set_params_id.
  - unfold declared_aliases. cbn. destruct (aliases v) as [names|]; cbn.
    + rewrite (for_each_pop_alias _ _ _ Hp). cbn.
      rewrite (IH _ (without names p)) by done.
      unfold without. by rewrite foldl_app.
    + by rewrite (IH _ p).
Qed.

(** C9.  [remove_aliases] returns normally and leaves the parameter
    mapping without any key that some option of the spec declares as an
    alias, whether or not the option itself is in the mapping; every other
    key keeps its value.  With the spec
    [{"api_version": {"aliases": ["api", "version"]}}] and the parameters
    [{"api": "v1", "name": "x"}], only [name] is left. *)
Theorem C9_remove_aliases self p :
  params self = Some p →
  let spec := (argspec self).1 in
  (∃ p', remove_aliases self = Ok (set_params p' (argspec self).2)
         ∧ (∀ key, key ∈ declared_aliases spec → p' !! key = None)
         ∧ (∀ key, key ∉ declared_aliases spec → p' !! key = p !! key))
  ∧ remove_aliases
      {| _argspec_cache := Some [("api_version", {| type_ := None; default_ := None;
                                    choices := None; aliases := Some ["api"; "version"];
                                    no_log := None |})];
         params := Some {[ "api" := Str "v1"; "name" := Str "x" ]} |}
    = Ok {| _argspec_cache := Some [("api_version", {| type_ := None; default_ := None;
                                    choices := None; aliases := Some ["api"; "version"];
                                    no_log := None |})];
            params := Some {[ "name" := Str "x" ]} |}.
Proof.
  intros Hp spec. split; [|by vm_compute].
  exists (without (declared_aliases spec) p). split; [|split].
  - unfold remove_aliases. subst spec. destruct (argspec self) as [spec self'] eqn:Hspec.
    cbn [fst snd]. apply for_each_spec_entry.
    unfold argspec in Hspec. by repeat case_match; simplify_eq.
  - intros key Hin. by rewrite lookup_without, bool_decide_eq_true_2.
  - intros key Hin. by rewrite lookup_without, bool_decide_eq_false_2.
Qed.

Lemma C9_remove_aliases_witness :
  let self :=
    {| _argspec_cache := None;
       params := Some {[ "api" := Str "v1"; "inline" := Dict []; "name" := Str "x" ]} |} in
  params self = Some {[ "api" := Str "v1"; "inline" := Dict []; "name" := Str "x" ]}
  ∧ ∃ p', remove_aliases self = Ok (set_params p' (argspec self).2)
          ∧ p' !! "api" = None ∧ p' !! "inline" = None ∧ p' !! "name" = Some (Str "x").
Proof.
  intros self. split; [reflexivity|].
  destruct (proj1 (C9_remove_aliases self _ eq_refl)) as (p' & Hrun & Hgone & Hkept).
  exists p'. split; [exact Hrun|]. split; [|split].
  - apply Hgone. solve_elem.
  - apply Hgone. solve_elem.
  - rewrite Hkept; [reflexivity|]. intros Hin. apply (bool_decide_pack _) in Hin.
    by vm_compute in Hin.
Defined.

(** ** [load_resource_definitions] *)

Section loader_facts.
Context (normpath : string → string) (path_exists : string → bool)
        (read_file : string → result string)
        (safe_load_all : string → result (list value)).

End loader_facts.


(** ** More on [diff_objects] *)

Lemma value_ind' (P : value → Prop) :
  (∀ a, P (Atom a)) →
  (∀ xs, Forall P xs → P (List xs)) →
  (∀ items, Forall (λ kv, P kv.2) items → P (Dict items)) →
  ∀ v, P v.
Proof.
  intros HA HL HD. fix IH 1. intros [a|xs|items].
  - apply HA.
  - apply HL. induction xs as [|x xs IHxs]; constructor; [apply IH | apply IHxs].
  - apply HD. induction items as [|kv items IHitems]; constructor;
      [apply IH | apply IHitems].
Qed.

Lemma forallb_ext_Forall {A} (f g : A → bool) (l : list A) :
  Forall (λ x, f x = g x) l → forallb f l = forallb g l.
Proof. induction 1 as [|x l Hx _ IH]; cbn; [done|]. by rewrite Hx, IH. Qed.

Lemma shared_attrs_loop_cons rec o1 kv rest acc :
  shared_attrs_loop rec o1 (kv :: rest) acc
  = project_item rec o1 kv ≫= λ x, shared_attrs_loop rec o1 rest (dict_set kv.1 x acc).
Proof.
  destruct kv as [k v]. unfold project_item. cbn [shared_attrs_loop fst snd].
  destruct v; [done..|]. by destruct (get o1 k (Dict [])).
Qed.

Lemma is_ok_shared_attrs_loop rec o1 items : ∀ acc,
  is_ok (shared_attrs_loop rec o1 items acc)
  = forallb (λ kv, is_ok (project_item rec o1 kv)) items.
Proof.
  induction items as [|kv items IH]; intros acc; [done|].
  rewrite shared_attrs_loop_cons. cbn [forallb].
  destruct (project_item rec o1 kv) as [x|e]; cbn; [apply IH | done].
Qed.

Lemma is_ok_get_shared_attrs o2 : ∀ o1,
  is_ok (get_shared_attrs o1 o2) = projectable o1 o2.
Proof.
  induction o2 as [a|xs _|items IH] using value_ind'; intros o1; [done..|].
  rewrite get_shared_attrs_Dict, is_ok_shared_attrs_loop.
  destruct items as [|kv items]; [done|].
  destruct o1 as [a|xs|e].
  - cbn. unfold project_item. by destruct kv.2.
  - cbn. unfold project_item. by destruct kv.2.
  - cbn [projectable]. apply forallb_ext_Forall.
    eapply Forall_impl; [exact IH|]. intros [k v] Hv. unfold project_item.
    cbn [fst snd] in *. destruct v; [done..|]. cbn. apply Hv.
Qed.

Lemma shared_attrs_loop_raises rec o1 items e :
  Forall (λ kv, ∀ e, project_item rec o1 kv = Raise e → is_AttributeError e) items →
  ∀ acc, shared_attrs_loop rec o1 items acc = Raise e → is_AttributeError e.
Proof.
  induction 1 as [|kv items Hkv _ IH]; intros acc; [done|].
  rewrite shared_attrs_loop_cons.
  destruct (project_item rec o1 kv) as [x|e'] eqn:Hx; cbn.
  - apply IH.
  - intros [= <-]. by apply Hkv.
Qed.

Lemma get_raises o k d e : get o k d = Raise e → is_AttributeError e.
Proof. destruct o; cbn; [intros [= <-]; by eexists ..|done]. Qed.

Lemma get_shared_attrs_raises o2 : ∀ o1 e,
  get_shared_attrs o1 o2 = Raise e → is_AttributeError e.
Proof.
  induction o2 as [a|xs _|items IH] using value_ind'; intros o1 e.
  - intros [= <-]. by eexists.
  - intros [= <-]. by eexists.
  - rewrite get_shared_attrs_Dict. apply shared_attrs_loop_raises.
    eapply Forall_impl; [exact IH|]. intros [k v] Hv e'. unfold project_item.
    cbn [fst snd] in *. destruct v; [apply get_raises..|].
    destruct (get o1 k (Dict [])) as [sub|e''] eqn:Hget; cbn.
    + apply Hv.
    + intros [= <-]. by eapply get_raises.
Qed.

(** X1.  [diff_objects] returns exactly when [existing] holds a mapping,
    or lacks the key, wherever [new] holds a non-empty mapping; the only
    exception it raises otherwise is [AttributeError]. *)
Theorem diff_objects_returns_iff_projectable existing new :
  (projectable existing new = true ↔ ∃ r, diff_objects existing new = Ok r)
  ∧ (∀ e, diff_objects existing new = Raise e → ∃ msg, e = AttributeError msg).
Proof.
  unfold diff_objects. rewrite <- is_ok_get_shared_attrs.
  destruct (get_shared_attrs existing new) as [shared|e'] eqn:Hshared; cbn.
  - split; [|done]. split; [by eexists | done].
  - split.
    + split; [done | by intros [r ?]].
    + intros e [= <-]. by eapply get_shared_attrs_raises.
Qed.

Lemma dict_set_fresh {V} k (v : V) d : k ∉ keys d → dict_set k v d = d ++ [(k, v)].
Proof.
  unfold keys. induction d as [|[k' v'] d IH]; cbn; [done|].
  intros [Hne Hd]%not_elem_of_cons.
  destruct (String.eqb_spec k k'); [done|]. by rewrite IH.
Qed.

Lemma atom_eqb_refl a : atom_eqb a a = true.
Proof.
  destruct a as [|[]|n|s]; cbn; try done.
  - apply Z.eqb_refl.
  - apply String.eqb_refl.
Qed.

Lemma only_in_nil d other :
  Forall (λ kv, dict_mem kv.1 other = true) d → only_in d other = [].
Proof.
  unfold only_in. induction 1 as [|[k v] d Hkv _ IH]; cbn in *; [done|].
  by rewrite Hkv.
Qed.

Lemma dict_mem_elem k v (d : dict) : (k, v) ∈ d → dict_mem k d = true.
Proof.
  intros Hin. unfold dict_mem.
  destruct (dict_lookup k d) eqn:Hk; [done|].
  apply dict_lookup_None in Hk. destruct Hk.
  unfold keys. apply list_elem_of_fmap. by exists (k, v).
Qed.

Lemma diff_keys_nil rec (first second : dict) node :
  Forall (λ kv, ∀ w p, dict_lookup kv.1 second = Some w → rec kv.2 w p = []) first →
  diff_keys rec first second node = [].
Proof.
  induction 1 as [|[k v] first Hkv _ IH]; cbn in *; [done|].
  destruct (dict_lookup k second) as [w|] eqn:Hw; [|done].
  by rewrite (Hkv w _ eq_refl), IH.
Qed.

Lemma diff_indices_refl rec (xs : list value) node :
  Forall (λ x, ∀ p, rec x x p = []) xs →
  ∀ i, diff_indices rec xs xs i node = [].
Proof.
  induction 1 as [|x xs Hx _ IH]; intros i; cbn; [done|]. by rewrite Hx, IH.
Qed.

Lemma diff_refl m : well_formed m = true → ∀ p, diff m m p = [].
Proof.
  induction m as [a|xs IH|items IH] using value_ind'; intros Hwf p.
  - cbn. by rewrite atom_eqb_refl.
  - cbn [diff]. rewrite Nat.min_id, drop_all. cbn.
    rewrite diff_indices_refl; [done|].
    cbn in Hwf. rewrite forallb_forall in Hwf.
    rewrite Forall_forall in IH |- *. intros x Hx q. apply IH; [done|].
    apply Hwf. by apply list_elem_of_In.
  - cbn [diff]. cbn in Hwf. apply andb_prop in Hwf as [Hnodup%bool_decide_eq_true Hall].
    rewrite forallb_forall in Hall.
    rewrite only_in_nil, diff_keys_nil; [done| |].
    + rewrite Forall_forall in IH |- *. intros [k v] Hin w q. cbn.
      rewrite (dict_lookup_elem _ _ _ Hnodup Hin). intros [= <-].
      apply (IH _ Hin). apply (Hall (k, v)). by apply list_elem_of_In.
    + apply Forall_forall. intros [k v] Hin. by eapply dict_mem_elem.
Qed.

Lemma shared_attrs_loop_self items : ∀ pre suf,
  items = pre ++ suf →
  NoDup (keys items) →
  Forall (λ kv, ∀ sub, kv.2 = Dict sub → get_shared_attrs kv.2 kv.2 = Ok kv.2) suf →
  shared_attrs_loop get_shared_attrs (Dict items) suf pre = Ok (Dict items).
Proof.
  intros pre suf. revert pre.
  induction suf as [|[k v] suf IH]; intros pre -> Hnodup Hsuf.
  - by rewrite app_nil_r.
  - apply Forall_cons in Hsuf as [Hv Hsuf]. rewrite shared_attrs_loop_cons.
    assert (dict_lookup k (pre ++ (k, v) :: suf) = Some v) as Hk.
    { apply dict_lookup_elem; [done|]. apply elem_of_app. right. apply list_elem_of_here. }
    assert (project_item get_shared_attrs (Dict (pre ++ (k, v) :: suf)) (k, v) = Ok v) as ->.
    { unfold project_item, get. cbn [fst snd] in *. rewrite Hk.
      destruct v as [a|xs|sub]; [done..|]. cbn. by apply (Hv sub). }
    cbn. rewrite dict_set_fresh.
    + apply IH; [by rewrite <- app_assoc | done | done].
    + unfold keys in *. rewrite fmap_app in Hnodup. cbn in Hnodup.
      apply NoDup_app in Hnodup as (_ & Hdisj & _).
      intros Hin. apply (Hdisj k Hin). apply list_elem_of_here.
Qed.

Lemma get_shared_attrs_self m :
  well_formed m = true → ∀ items, m = Dict items → get_shared_attrs m m = Ok m.
Proof.
  induction m as [a|xs _|items' IH] using value_ind'; intros Hwf items [= ->].
  rewrite get_shared_attrs_Dict at 1.
  cbn in Hwf. apply andb_prop in Hwf as [Hnodup%bool_decide_eq_true Hall].
  rewrite forallb_forall in Hall.
  apply (shared_attrs_loop_self items [] items); [done..|].
  rewrite Forall_forall in IH |- *. intros [k v] Hin sub Hsub. cbn in *.
  apply (IH _ Hin) with sub; [|done]. apply (Hall (k, v)). by apply list_elem_of_In.
Qed.

(** X2.  A mapping matches itself: [diff_objects(m, m)] is [(True, [])]. *)
Theorem diff_objects_same m items :
  well_formed m = true → m = Dict items →
  diff_objects m m = Ok (true, []).
Proof.
  intros Hwf Hm. unfold diff_objects.
  rewrite (get_shared_attrs_self m Hwf items Hm). cbn.
  by rewrite diff_refl.
Qed.

Lemma diff_objects_same_witness :
  let m := Dict [("kind", Str "Pod");
                 ("spec", Dict [("containers", List [Dict [("name", Str "c")]])])] in
  well_formed m = true ∧ diff_objects m m = Ok (true, []).
Proof.
  intros m. split; [reflexivity|].
  by apply (diff_objects_same m _ eq_refl eq_refl).
Defined.

(** X3.  Fields that only the existing object has, at any path that [new]
    does not mention, do not disturb the match of an object with itself. *)
Theorem diff_objects_same_with_extra_key p k x m items :
  well_formed m = true → m = Dict items → unmentioned p k m = true →
  diff_objects (add_key_at p k x m) m = Ok (true, []).
Proof.
  intros Hwf Hm Hun. unfold diff_objects.
  rewrite get_shared_attrs_add_key by done.
  rewrite (get_shared_attrs_self m Hwf items Hm). cbn.
  by rewrite diff_refl.
Qed.

Lemma diff_objects_same_with_extra_key_witness :
  let m := Dict [("spec", Dict [("replicas", Int 3)])] in
  well_formed m = true
  ∧ unmentioned ["spec"] "strategy" m = true
  ∧ diff_objects
      (Dict [("spec", Dict [("replicas", Int 3); ("strategy", Str "RollingUpdate")])]) m
    = Ok (true, []).
Proof.
  intros m. split; [reflexivity|]. split; [reflexivity|].
  by apply (diff_objects_same_with_extra_key ["spec"] "strategy" (Str "RollingUpdate")
              m _ eq_refl eq_refl eq_refl).
Defined.

(** The mapping that the loop returns: what it started with, then one
    entry for each item, in order. *)
Lemma shared_attrs_loop_spec rec o1 items : ∀ acc r,
  NoDup (keys acc ++ keys items) →
  shared_attrs_loop rec o1 items acc = Ok r →
  ∃ ws, r = Dict (acc ++ ws)
        ∧ Forall2 (λ kv kw, kw.1 = kv.1 ∧ project_item rec o1 kv = Ok kw.2) items ws.
Proof.
  induction items as [|[k v] items IH]; intros acc r Hnodup.
  - cbn. intros [= <-]. exists []. by rewrite app_nil_r.
  - rewrite shared_attrs_loop_cons.
    destruct (project_item rec o1 (k, v)) as [x|e] eqn:Hx; cbn; [|done].
    assert (k ∉ keys acc) as Hk.
    { apply NoDup_app in Hnodup as (_ & Hdisj & _).
      intros Hin. apply (Hdisj k Hin). apply list_elem_of_here. }
    rewrite dict_set_fresh by done. intros Hrun.
    apply IH in Hrun as (ws & -> & Hws).
    + exists ((k, x) :: ws). rewrite <- app_assoc. split; [done|].
      by constructor.
    + unfold keys in *. rewrite fmap_app, <- app_assoc. done.
Qed.

Lemma Forall2_keys (items ws : dict) (R : string * value → string * value → Prop) :
  Forall2 (λ kv kw, kw.1 = kv.1 ∧ R kv kw) items ws → keys ws = keys items.
Proof.
  unfold keys. induction 1 as [|kv kw items ws [Hk _] _ IH]; cbn; [done|].
  by rewrite Hk, IH.
Qed.

Lemma get_ok o k d w : get o k d = Ok w → w = get_or d o k.
Proof. destruct o; cbn; [done..|]. by intros [= <-]. Qed.

Lemma project_item_ok existing k v w :
  project_item get_shared_attrs existing (k, v) = Ok w →
  match v with
  | Dict _ => get_shared_attrs (get_or (Dict []) existing k) v = Ok w
  | _ => w = get_or None_ existing k
  end.
Proof.
  unfold project_item. cbn [fst snd].
  destruct v as [a|xs|sub]; [apply get_ok..|].
  destruct (get existing k (Dict [])) as [s|e] eqn:Hget; cbn; [|done].
  by rewrite (get_ok _ _ _ _ Hget).
Qed.

(** X4.  The projection has the keys of [new], in the order of [new], and
    nothing else.  Under a key where [new] holds a mapping it holds the
    projection of what [existing] has there (of the empty mapping when
    [existing] lacks the key); under any other key it holds the value of
    [existing], or [None] when [existing] lacks the key. *)
Theorem get_shared_attrs_shape existing items shared :
  NoDup (keys items) →
  get_shared_attrs existing (Dict items) = Ok shared →
  ∃ ws, shared = Dict ws
        ∧ keys ws = keys items
        ∧ ∀ k v, dict_lookup k items = Some v →
            ∃ w, dict_lookup k ws = Some w
                 ∧ match v with
                   | Dict _ => get_shared_attrs (get_or (Dict []) existing k) v = Ok w
                   | _ => w = get_or None_ existing k
                   end.
Proof.
  intros Hnodup Hrun. rewrite get_shared_attrs_Dict in Hrun.
  apply shared_attrs_loop_spec in Hrun as (ws & -> & Hws); [|done].
  exists ws. split; [done|].
  assert (keys ws = keys items) as Hkeys.
  { apply (Forall2_keys items ws
             (λ kv kw, project_item get_shared_attrs existing kv = Ok kw.2) Hws). }
  split; [done|]. intros k v Hk.
  assert (NoDup (keys ws)) as Hnodup' by (by rewrite Hkeys).
  clear Hkeys. revert Hnodup Hnodup' Hk.
  induction Hws as [|[k1 v1] [k2 w2] items ws [Hkk Hitem] _ IH]; [done|].
  cbn in Hkk. subst k2. unfold keys. cbn.
  intros [Hfresh Hnd]%NoDup_cons [Hfresh' Hnd']%NoDup_cons.
  destruct (String.eqb_spec k k1) as [->|Hne].
  - intros [= <-]. exists w2. split; [done|]. by apply project_item_ok.
  - by apply IH.
Qed.

Lemma get_shared_attrs_shape_witness :
  let existing := Dict [("a", Int 1); ("c", Dict [("d", Int 4); ("e", Int 5)])] in
  let items := [("c", Dict [("d", Int 0)]); ("b", Int 2)] in
  NoDup (keys items)
  ∧ ∃ ws, get_shared_attrs existing (Dict items) = Ok (Dict ws)
          ∧ keys ws = ["c"; "b"]
          ∧ dict_lookup "b" ws = Some None_.
Proof.
  intros existing items.
  assert (NoDup (keys items)) as Hnodup by (apply (bool_decide_unpack _); by vm_compute).
  split; [exact Hnodup|].
  destruct (get_shared_attrs_shape existing items
              (Dict [("c", Dict [("d", Int 4)]); ("b", None_)]) Hnodup eq_refl)
    as (ws & Hws & Hkeys & Hlookup).
  exists ws. split; [by rewrite <- Hws|]. split; [exact Hkeys|].
  destruct (Hlookup "b" (Int 2) eq_refl) as (w & Hw & ->). exact Hw.
Defined.

Lemma emit_nil kind node items : emit kind node items = [] ↔ items = [].
Proof. by destruct items. Qed.

Lemma app_nil_iff {A} (l1 l2 : list A) : l1 ++ l2 = [] ↔ l1 = [] ∧ l2 = [].
Proof. split; [apply app_eq_nil | by intros [-> ->]]. Qed.

Lemma diff_keys_nil_path rec (first second : dict) p q :
  Forall (λ kv, ∀ w p q, rec kv.2 w p = [] → rec kv.2 w q = []) first →
  diff_keys rec first second p = [] → diff_keys rec first second q = [].
Proof.
  induction 1 as [|[k v] first Hkv _ IH]; cbn in *; [done|].
  destruct (dict_lookup k second) as [w|]; [|done].
  rewrite !app_nil_iff. intros [Hv Hrest]. split; [by eapply Hkv | by apply IH].
Qed.

Lemma diff_indices_nil_path rec (xs : list value) p q :
  Forall (λ x, ∀ w p q, rec x w p = [] → rec x w q = []) xs →
  ∀ ys i j, diff_indices rec xs ys i p = [] → diff_indices rec xs ys j q = [].
Proof.
  induction 1 as [|x xs Hx _ IH]; intros [|y ys] i j; cbn; try done.
  rewrite !app_nil_iff. intros [Hy Hrest]. split; [by eapply Hx | by eapply IH].
Qed.

(** Whether [diff] finds something does not depend on the path it starts
    from. *)
Lemma diff_nil_path v : ∀ w p q, diff v w p = [] → diff v w q = [].
Proof.
  induction v as [a|xs IH|items IH] using value_ind'; intros w p q.
  - cbn [diff]. by destruct (differs (Atom a) w).
  - destruct w as [b|ys|d]; cbn [diff].
    + by destruct (differs (List xs) (Atom b)).
    + rewrite !app_nil_iff, !emit_nil. intros (Hi & Ha & Hr).
      split; [by eapply diff_indices_nil_path | done].
    + by destruct (differs (List xs) (Dict d)).
  - destruct w as [b|ys|d]; cbn [diff].
    + by destruct (differs (Dict items) (Atom b)).
    + by destruct (differs (Dict items) (List ys)).
    + rewrite !app_nil_iff, !emit_nil. intros (Hk & Ha & Hr).
      split; [by eapply diff_keys_nil_path | done].
Qed.

Lemma agrees_diff v w p : agrees v w = true ↔ diff v w p = [].
Proof.
  unfold agrees. split.
  - destruct (diff v w []) eqn:Hd; [|done]. intros _. by eapply diff_nil_path.
  - intros Hd. by rewrite (diff_nil_path v w p []).
Qed.

(** The loop of [diff] over the keys of [new], against a projection whose
    entries are aligned with them. *)
Lemma diff_keys_satisfies existing (second : dict) p (items ws : dict) :
  Forall2 (λ kv kw, kw.1 = kv.1 ∧ project_item get_shared_attrs existing kv = Ok kw.2)
          items ws →
  Forall (λ kw, dict_lookup kw.1 second = Some kw.2) ws →
  Forall (λ kv, ∀ existing shared p,
            get_shared_attrs existing kv.2 = Ok shared →
            diff kv.2 shared p = [] ↔ satisfies existing kv.2 = true) items →
  diff_keys diff items second p = []
  ↔ forallb (λ kv,
       match kv.2 with
       | Dict _ => satisfies (get_or (Dict []) existing kv.1) kv.2
       | _ => agrees kv.2 (get_or None_ existing kv.1)
       end) items = true.
Proof.
  induction 1 as [|[k v] [k' w] items ws [Hk Hitem] _ IH]; [done|].
  cbn in Hk. subst k'.
  intros [Hw Hws]%Forall_cons [Hv Hitems]%Forall_cons. cbn in Hw, Hv.
  cbn [diff_keys forallb fst snd]. rewrite Hw, app_nil_iff, andb_true_iff, IH by done.
  apply project_item_ok in Hitem.
  assert (diff v w (p ++ [Key k]) = []
          ↔ match v with
            | Dict _ => satisfies (get_or (Dict []) existing k) v
            | _ => agrees v (get_or None_ existing k)
            end = true) as Hhead.
  { destruct v as [a|xs|sub]; simpl in Hitem.
    - subst w. symmetry. apply agrees_diff.
    - subst w. symmetry. apply agrees_diff.
    - by apply Hv. }
  by rewrite Hhead.
Qed.

Lemma dict_mem_keys k (d : dict) : k ∈ keys d → dict_mem k d = true.
Proof.
  intros Hin. unfold dict_mem. destruct (dict_lookup k d) eqn:Hk; [done|].
  by apply dict_lookup_None in Hk.
Qed.

Lemma only_in_same_keys (d other : dict) : keys d = keys other → only_in d other = [].
Proof.
  intros Hkeys. apply only_in_nil, Forall_forall. intros [k v] Hin.
  apply dict_mem_keys. rewrite <- Hkeys. unfold keys.
  apply list_elem_of_fmap. by exists (k, v).
Qed.

Lemma diff_projection_nil new : ∀ existing shared p,
  well_formed new = true →
  get_shared_attrs existing new = Ok shared →
  diff new shared p = [] ↔ satisfies existing new = true.
Proof.
  induction new as [a|xs _|items IH] using value_ind'; intros existing shared p Hwf;
    [done..|].
  cbn in Hwf. apply andb_prop in Hwf as [Hnodup%bool_decide_eq_true Hall].
  rewrite forallb_forall in Hall.
  rewrite get_shared_attrs_Dict. intros Hrun.
  apply shared_attrs_loop_spec in Hrun as (ws & -> & Hws); [|done].
  assert (keys ws = keys items) as Hkeys.
  { apply (Forall2_keys items ws
             (λ kv kw, project_item get_shared_attrs existing kv = Ok kw.2) Hws). }
  cbn [diff app satisfies].
  rewrite (only_in_same_keys ws items), (only_in_same_keys items ws) by done.
  cbn [emit]. rewrite !app_nil_r.
  apply diff_keys_satisfies with ws; [done| |].
  - apply Forall_forall. intros [k w] Hin. apply dict_lookup_elem; [|done].
    by rewrite Hkeys.
  - rewrite Forall_forall in IH |- *. intros [k v] Hin ex sh q. cbn.
    apply (IH _ Hin). apply (Hall (k, v)). by apply list_elem_of_In.
Qed.

(** X5.  The [match] flag says whether [existing] has what [new] asks for:
    it is true exactly when, under every key of [new] and down through the
    mappings of [new], [existing] holds a value that [diff] cannot tell
    from the one of [new], a missing key counting as [None]. *)
Theorem diff_objects_match_iff_satisfies existing new matched diffs :
  well_formed new = true →
  diff_objects existing new = Ok (matched, diffs) →
  matched = satisfies existing new.
Proof.
  intros Hwf. unfold diff_objects.
  destruct (get_shared_attrs existing new) as [shared|e] eqn:Hshared; cbn; [|done].
  intros [= <- <-].
  pose proof (diff_projection_nil new existing shared [] Hwf Hshared) as Hiff.
  destruct (satisfies existing new).
  - apply bool_decide_eq_true_2. by rewrite (proj2 Hiff eq_refl).
  - apply bool_decide_eq_false_2. intros Hlen%length_zero_iff_nil.
    by apply Hiff in Hlen.
Qed.

Lemma diff_objects_match_iff_satisfies_witness :
  let existing := Dict [("spec", Dict [("replicas", Int 1); ("paused", Bool false)])] in
  let new := Dict [("spec", Dict [("replicas", Int 2)])] in
  well_formed new = true
  ∧ diff_objects existing new
    = Ok (false, [CHANGE [Key "spec"; Key "replicas"] (Int 2) (Int 1)])
  ∧ satisfies existing new = false.
Proof.
  intros existing new. split; [reflexivity|]. split; [reflexivity|].
  symmetry.
  by apply (diff_objects_match_iff_satisfies existing new false
              [CHANGE [Key "spec"; Key "replicas"] (Int 2) (Int 1)] eq_refl eq_refl).
Defined.

(** X6.  A key that [existing] lacks reads as [None]: a [None] of [new]
    under it matches, and any other scalar of [new] is reported as a change
    from [None]. *)
Theorem diff_objects_missing_key_reads_as_None e k a :
  dict_lookup k e = None →
  diff_objects (Dict e) (Dict [(k, Atom a)])
  = Ok (match a with
        | ANone => (true, [])
        | _ => (false, [CHANGE [Key k] (Atom a) None_])
        end).
Proof.
  intros Hk. unfold diff_objects. rewrite get_shared_attrs_Dict.
  cbn. rewrite Hk. cbn. unfold only_in, dict_mem. cbn. rewrite String.eqb_refl. cbn.
  by destruct a.
Qed.

Lemma diff_objects_missing_key_reads_as_None_witness :
  dict_lookup "b" [("a", Int 1)] = None
  ∧ diff_objects (Dict [("a", Int 1)]) (Dict [("b", None_)]) = Ok (true, []).
Proof.
  split; [reflexivity|].
  exact (diff_objects_missing_key_reads_as_None [("a", Int 1)] "b" ANone eq_refl).
Defined.

(** ** More on the auth resolver *)

Section auth_more.
Context (repr : value → string) (environ : gmap string string)
        (Configuration : configuration)
        (load_incluster_config : result unit)
        (new_client_from_config : value → value → result api_client).

(** X7.  Parameters that are not auth options (the resource definition,
    [state], [name], ...) never reach the configuration: under any other
    name it holds what the client library put there. *)
Theorem get_api_client_ignores_other_parameters self kwargs key :
  key ∉ keys AUTH_ARG_SPEC →
  (get_api_client repr environ Configuration load_incluster_config
     new_client_from_config self kwargs).1 !! key
  = Configuration !! key.
Proof.
  intros Hkey. cbn [get_api_client fst]. rewrite build_configuration_lookup.
  destruct (effective_auth self kwargs !! key) as [v|]; [|done].
  unfold configured. by rewrite (bool_decide_eq_false_2 _ Hkey).
Qed.

(** X8.  Keyword arguments replace the module parameters, they are not
    merged with them: once any is given, the parameters of the module play
    no part; with none given, the parameters are used as the arguments. *)
Theorem get_api_client_kwargs_replace_params self kwargs :
  (kwargs ≠ ∅ →
   ∀ self',
     get_api_client repr environ Configuration load_incluster_config
       new_client_from_config self kwargs
     = get_api_client repr environ Configuration load_incluster_config
         new_client_from_config self' kwargs)
  ∧ (∀ p, params self = Some p →
       get_api_client repr environ Configuration load_incluster_config
         new_client_from_config self ∅
       = get_api_client repr environ Configuration load_incluster_config
           new_client_from_config self p).
Proof.
  split.
  - intros Hne self'. unfold get_api_client, effective_auth.
    by rewrite !bool_decide_eq_false_2.
  - intros p Hp. unfold get_api_client, effective_auth. rewrite Hp.
    rewrite bool_decide_eq_true_2 by done. cbn [default from_option id].
    by case_bool_decide; subst.
Qed.

(** X9.  With [api_key] and [host] given, the method is [params]: the
    client is built on the configuration, which carries the host and the
    key as the header [authorization: Bearer <api_key>]. *)
Theorem get_api_client_bearer_token self kwargs :
  let auth := effective_auth self kwargs in
  let result := get_api_client repr environ Configuration load_incluster_config
                  new_client_from_config self kwargs in
  auth_has auth "api_key" = true →
  auth_has auth "host" = true →
  select_auth_method auth = method_params
  ∧ result.2 = Ok (DynamicClient (ApiClient (Some result.1)))
  ∧ result.1 !! "api_key"
    = Some (Dict [("authorization",
                   Str ("Bearer " +:+ format_value repr (auth_get auth "api_key")))])
  ∧ result.1 !! "host" = auth !! "host".
Proof.
  intros auth result Hk Hh. subst result. cbn [get_api_client fst snd]. fold auth.
  assert (select_auth_method auth = method_params) as Hm.
  { unfold select_auth_method. rewrite Hk, Hh. by destruct (_ && _). }
  rewrite Hm. split; [done|]. split; [done|].
  unfold auth_get.
  apply auth_has_lookup in Hk as (k & Hk & Hnk), Hh as (h & Hh & Hnh).
  rewrite !build_configuration_lookup, Hk, Hh. unfold configured.
  by rewrite Hnk, Hnh.
Qed.

Lemma client_from_kubeconfig_given_path config_file context :
  truthy_value config_file = true →
  client_from_kubeconfig new_client_from_config config_file context
  = new_client_from_config config_file context.
Proof.
  intros Hcf. unfold client_from_kubeconfig.
  destruct (new_client_from_config config_file context) as [c|[]]; by rewrite ?Hcf.
Qed.

(** X10.  In the [file] method with a [kubeconfig] given, the outcome is
    the one of loading that file with the given context: a client on what
    was loaded, or the exception of the load, whatever it is. *)
Theorem get_api_client_kubeconfig_given self kwargs :
  let auth := effective_auth self kwargs in
  select_auth_method auth = method_file →
  auth_has auth "kubeconfig" = true →
  (get_api_client repr environ Configuration load_incluster_config
     new_client_from_config self kwargs).2
  = DynamicClient <$> new_client_from_config (auth_get auth "kubeconfig")
                        (auth_get auth "context").
Proof.
  intros auth Hm Hk. cbn [get_api_client snd]. fold auth. rewrite Hm.
  cbn [client_for]. by rewrite client_from_kubeconfig_given_path.
Qed.

(** X11.  With no auth parameter given, the client is the one on the
    default configuration both when the in-cluster configuration loads and
    when neither it nor a kubeconfig can be found; any other exception of
    the in-cluster attempt is passed on. *)
Theorem get_api_client_without_credentials self kwargs :
  let auth := effective_auth self kwargs in
  let result := get_api_client repr environ Configuration load_incluster_config
                  new_client_from_config self kwargs in
  Forall (λ k, auth_get auth k = None_)
         ["username"; "password"; "host"; "api_key"; "kubeconfig"; "context"] →
  (load_incluster_config = Ok () → result.2 = Ok (DynamicClient (ApiClient None)))
  ∧ (∀ m m',
       load_incluster_config = Raise (ConfigException m) →
       new_client_from_config None_ None_ = Raise (IOError m')
       ∨ new_client_from_config None_ None_ = Raise (ConfigException m') →
       result.2 = Ok (DynamicClient (ApiClient None)))
  ∧ (∀ e, (∀ m, e ≠ ConfigException m) →
          load_incluster_config = Raise e → result.2 = Raise e).
Proof.
  intros auth result Habs. subst result. cbn [get_api_client snd]. fold auth.
  rewrite Forall_forall in Habs.
  assert (select_auth_method auth = method_default) as ->.
  { unfold select_auth_method, auth_has. rewrite !Habs; [done|solve_elem ..]. }
  cbn [client_for]. rewrite !Habs by solve_elem.
  split; [|split].
  - by intros ->.
  - intros m m' -> Hload. unfold client_from_kubeconfig.
    by destruct Hload as [-> | ->].
  - intros e He ->. destruct e; try done. by destruct (He msg).
Qed.
End auth_more.

Lemma get_api_client_ignores_other_parameters_witness :
  ("resource_definition" ∉ keys AUTH_ARG_SPEC)
  ∧ (get_api_client (λ _, "") ∅ ∅ (Ok ()) (λ _ _, Raise (IOError "no such file"))
       {| _argspec_cache := None;
          params := Some {[ "resource_definition" := Dict [("kind", Str "Pod")];
                            "host" := Str "h" ]} |} ∅).1 !! "resource_definition"
    = None.
Proof.
  assert ("resource_definition" ∉ keys AUTH_ARG_SPEC) as Hkey.
  { intros Hin. apply (bool_decide_pack _) in Hin. by vm_compute in Hin. }
  split; [exact Hkey|].
  etrans.
  - apply (get_api_client_ignores_other_parameters (λ _, "") ∅ ∅ (Ok ())
             (λ _ _, Raise (IOError "no such file")) _ ∅ "resource_definition" Hkey).
  - reflexivity.
Defined.

Lemma get_api_client_kwargs_replace_params_witness :
  let self := {| _argspec_cache := None; params := Some {[ "host" := Str "h" ]} |} in
  let run := get_api_client (λ _, "") ∅ ∅ (Ok ()) (λ _ _, Raise (IOError "no such file")) in
  ({[ "context" := Str "c" ]} : gmap string value) ≠ ∅
  ∧ run self {[ "context" := Str "c" ]}
    = run {| _argspec_cache := None; params := None |} {[ "context" := Str "c" ]}.
Proof.
  intros self run.
  assert (({[ "context" := Str "c" ]} : gmap string value) ≠ ∅) as Hne.
  { apply insert_non_empty. }
  split; [exact Hne|].
  apply (proj1 (get_api_client_kwargs_replace_params (λ _, "") ∅ ∅ (Ok ())
                  (λ _ _, Raise (IOError "no such file")) self _) Hne).
Defined.

Lemma get_api_client_bearer_token_witness :
  let auth : gmap string value := {[ "api_key" := Str "k"; "host" := Str "h" ]} in
  let result :=
    get_api_client (λ _, "") ∅ ∅ (Ok ()) (λ _ _, Raise (IOError "no such file"))
      {| _argspec_cache := None; params := None |} auth in
  result.2 = Ok (DynamicClient (ApiClient (Some result.1)))
  ∧ result.1 !! "api_key" = Some (Dict [("authorization", Str "Bearer k")]).
Proof.
  intros auth result.
  destruct (get_api_client_bearer_token (λ _, "") ∅ ∅ (Ok ())
              (λ _ _, Raise (IOError "no such file"))
              {| _argspec_cache := None; params := None |} auth eq_refl eq_refl)
    as (_ & Hclient & Hkey & _).
  split; [exact Hclient | exact Hkey].
Defined.

Lemma get_api_client_kubeconfig_given_witness :
  let auth : gmap string value := {[ "kubeconfig" := Str "/missing" ]} in
  (get_api_client (λ _, "") ∅ ∅ (Ok ()) (λ _ _, Raise (IOError "no such file"))
     {| _argspec_cache := None; params := None |} auth).2
  = Raise (IOError "no such file").
Proof.
  intros auth.
  by apply (get_api_client_kubeconfig_given (λ _, "") ∅ ∅ (Ok ())
              (λ _ _, Raise (IOError "no such file"))
              {| _argspec_cache := None; params := None |} auth eq_refl eq_refl).
Defined.

Lemma get_api_client_without_credentials_witness :
  (get_api_client (λ _, "") ∅ ∅ (Raise (ConfigException "not in cluster"))
     (λ _ _, Raise (ConfigException "no configuration found"))
     {| _argspec_cache := None; params := Some {[ "host" := None_; "name" := Str "x" ]} |}
     ∅).2
  = Ok (DynamicClient (ApiClient None)).
Proof.
  eapply (proj1 (proj2 (get_api_client_without_credentials (λ _, "") ∅ ∅
                          (Raise (ConfigException "not in cluster"))
                          (λ _ _, Raise (ConfigException "no configuration found"))
                          {| _argspec_cache := None;
                             params := Some {[ "host" := None_; "name" := Str "x" ]} |}
                          ∅ _))); [reflexivity | by right].
  Unshelve. repeat constructor.
Defined.

(** ** More on [argspec] and [remove_aliases] *)

(** X12.  The [argspec] property never returns an empty spec and leaves
    the parameters alone; what it returned once it returns again, without
    changing the object further; and an empty cached spec counts as no
    cache. *)
Theorem argspec_is_cached self :
  (argspec self).1 ≠ []
  ∧ params (argspec self).2 = params self
  ∧ argspec (argspec self).2 = argspec self
  ∧ argspec {| _argspec_cache := Some []; params := params self |}
    = argspec {| _argspec_cache := None; params := params self |}.
Proof.
  unfold argspec. by destruct self as [[[|entry more]|] p].
Qed.

Lemma without_without names (p : gmap string value) :
  without names (without names p) = without names p.
Proof.
  apply map_eq. intros key. rewrite !lookup_without. by case_bool_decide.
Qed.

Lemma argspec_params self : params (argspec self).2 = params self.
Proof. unfold argspec. by destruct self as [[[|entry more]|] p]. Qed.

Lemma argspec_again self : argspec (argspec self).2 = argspec self.
Proof. unfold argspec. by destruct self as [[[|entry more]|] p]. Qed.

Lemma argspec_set_params self p :
  argspec (set_params p self) = ((argspec self).1, set_params p (argspec self).2).
Proof. unfold argspec, set_params. by destruct self as [[[|entry more]|] q]. Qed.

Lemma remove_aliases_run self p :
  params self = Some p →
  remove_aliases self
  = Ok (set_params (without (declared_aliases (argspec self).1) p) (argspec self).2).
Proof.
  intros Hp. unfold remove_aliases.
  destruct (argspec self) as [spec self'] eqn:Hspec. cbn [fst snd].
  apply for_each_spec_entry.
  change self' with (spec, self').2. by rewrite <- Hspec, argspec_params.
Qed.

(** X13.  Removing the aliases a second time changes nothing. *)
Theorem remove_aliases_idempotent self p self' :
  params self = Some p →
  remove_aliases self = Ok self' →
  remove_aliases self' = Ok self'.
Proof.
  intros Hp. rewrite (remove_aliases_run self p Hp). intros [= <-].
  erewrite remove_aliases_run by reflexivity.
  rewrite argspec_set_params, argspec_again. cbn [fst snd].
  rewrite without_without. by destruct (argspec self).2.
Qed.

(** X14.  With the spec of the module itself, [remove_aliases] takes
    [definition], [inline], [api] and [version] out of the parameters and
    leaves every other parameter as it was. *)
Theorem remove_aliases_of_module p :
  ∃ p',
    remove_aliases {| _argspec_cache := None; params := Some p |}
    = Ok {| _argspec_cache := Some (dict_update COMMON_ARG_SPEC AUTH_ARG_SPEC);
            params := Some p' |}
    ∧ ∀ key, p' !! key
             = if bool_decide (key ∈ ["definition"; "inline"; "api"; "version"])
               then None else p !! key.
Proof.
  exists (without ["definition"; "inline"; "api"; "version"] p). split.
  - by rewrite (remove_aliases_run {| _argspec_cache := None; params := Some p |} p eq_refl).
  - intros key. apply lookup_without.
Qed.

Lemma for_each_spec_entry_no_params (spec : arg_spec) self :
  params self = None →
  for_each (λ '(k, v) self,
      match aliases v with
      | Some names => for_each pop_alias names self
      | None => Ok self
      end) spec self
  = match declared_aliases spec with
    | [] => Ok self
    | _ => Raise (AttributeError "'K8sAnsibleMixin' object has no attribute 'params'")
    end.
Proof.
  intros Hp. induction spec as [|[k v] spec IH]; [done|].
  cbn [for_each]. unfold declared_aliases in *. cbn.
  destruct (aliases v) as [[|name names]|]; cbn.
  - exact IH.
  - unfold pop_alias, get_params. by rewrite Hp.
  - exact IH.
Qed.

(** X15.  On an object without [params], [remove_aliases] raises
    [AttributeError] as soon as the spec declares an alias, which the spec
    of the module does; with a spec that declares none it returns without
    looking for the parameters. *)
Theorem remove_aliases_without_params self :
  params self = None →
  remove_aliases self
  = match declared_aliases (argspec self).1 with
    | [] => Ok (argspec self).2
    | _ => Raise (AttributeError "'K8sAnsibleMixin' object has no attribute 'params'")
    end.
Proof.
  intros Hp. unfold remove_aliases.
  destruct (argspec self) as [spec self'] eqn:Hspec. cbn [fst snd].
  apply for_each_spec_entry_no_params.
  change self' with (spec, self').2. by rewrite <- Hspec, argspec_params.
Qed.

Lemma remove_aliases_idempotent_witness :
  let self := {| _argspec_cache := None;
                 params := Some {[ "api" := Str "v1"; "name" := Str "x" ]} |} in
  let self' := {| _argspec_cache := Some (dict_update COMMON_ARG_SPEC AUTH_ARG_SPEC);
                  params := Some {[ "name" := Str "x" ]} |} in
  remove_aliases self = Ok self' ∧ remove_aliases self' = Ok self'.
Proof.
  intros self self'.
  assert (remove_aliases self = Ok self') as Hrun by (by vm_compute).
  split; [exact Hrun|].
  exact (remove_aliases_idempotent self _ self' eq_refl Hrun).
Defined.

Lemma remove_aliases_without_params_witness :
  remove_aliases {| _argspec_cache := None; params := None |}
  = Raise (AttributeError "'K8sAnsibleMixin' object has no attribute 'params'").
Proof.
  exact (remove_aliases_without_params {| _argspec_cache := None; params := None |} eq_refl).
Defined.

(** ** More on [load_resource_definitions] *)

Section loader_more.
Context (normpath : string → string) (path_exists : string → bool)
        (read_file : string → result string)
        (safe_load_all : string → result (list value)).

(** X16.  For a path that exists: a file that cannot be read ends the run
    with the "Error loading resource_definition" message, as does an
    [IOError] while the documents are read; an exception that is neither
    [IOError] nor [YAMLError] is passed on, from either step. *)
Theorem load_resource_definitions_failures src :
  let path := normpath src in
  let loaded := load_resource_definitions normpath path_exists read_file safe_load_all src in
  path_exists path = true →
  (∀ msg, read_file path = Raise (IOError msg) →
          loaded = FailJson ("Error loading resource_definition: " +:+ msg))
  ∧ (∀ text msg, read_file path = Ok text → safe_load_all text = Raise (IOError msg) →
                 loaded = FailJson ("Error loading resource_definition: " +:+ msg))
  ∧ (∀ e, (∀ msg, e ≠ IOError msg) → (∀ msg, e ≠ YAMLError msg) →
          read_file path = Raise e
          ∨ (∃ text, read_file path = Ok text ∧ safe_load_all text = Raise e) →
          loaded = Raises e).
Proof.
  intros path loaded Hexists. subst path loaded. unfold load_resource_definitions.
  rewrite Hexists. cbn [negb]. split; [|split].
  - by intros msg ->.
  - intros text msg -> Hparse. cbn. by rewrite Hparse.
  - intros e Hio Hyaml Hraise.
    assert ((read_file (normpath src) ≫= λ text, safe_load_all text) = Raise e) as ->.
    { destruct Hraise as [-> | (text & -> & Hparse)]; [done | by cbn]. }
    destruct e; try done; [by destruct (Hio msg) | by destruct (Hyaml msg)].
Qed.
End loader_more.

Lemma load_resource_definitions_failures_witness :
  let read_file (path : string) : result string := Raise (IOError "Permission denied") in
  path_exists_always "pods.yml" = true
  ∧ load_resource_definitions id path_exists_always read_file (λ _, Ok []) "pods.yml"
    = FailJson "Error loading resource_definition: Permission denied".
Proof.
  intros read_file. split; [reflexivity|].
  by apply (proj1 (load_resource_definitions_failures id path_exists_always read_file
                     (λ _, Ok []) "pods.yml" eq_refl)).
Defined.
